(** * pytmc: pragma-driven configuration assembly ([xml_collector.py])

    A shallow embedding of [ElementCollector] and [PvPackage] together with
    the properties of their operations.

    Python dictionaries are finite maps ([gmap]); ordered dictionaries
    (the rule lines) are association lists because their iteration order
    is observable; exceptions are the [Raise] branch of [result]. *)

From stdpp Require Import gmap strings list fin_maps.

Local Open Scope string_scope.
Local Open Scope list_scope.

(** ** Exceptions *)

Inductive exn :=
  | KeyError
  | TypeError
  | UnboundLocalError
  | IndexError.

Inductive result (A : Type) :=
  | Ok (x : A)
  | Raise (e : exn).
Arguments Ok {A} x.
Arguments Raise {A} e.

#[global] Instance exn_eq_dec : EqDecision exn.
Proof. solve_decision. Defined.

#[global] Instance result_eq_dec `{EqDecision A} : EqDecision (result A).
Proof. solve_decision. Defined.

#[global] Instance result_ret : MRet result := fun _ x => Ok x.
#[global] Instance result_bind : MBind result := fun _ _ f m =>
  match m with
  | Ok x => f x
  | Raise e => Raise e
  end.

(** [d[k]] on a dictionary. *)
Definition getitem {V} (d : gmap string V) (k : string) : result V :=
  match d !! k with
  | Some v => Ok v
  | None => Raise KeyError
  end.

(** A loop whose body may raise. *)
Fixpoint for_each {S A} (body : S -> A -> result S) (s : S) (l : list A)
  : result S :=
  match l with
  | [] => Ok s
  | x :: l' => s' ← body s x; for_each body s' l'
  end.

(** ** Pragma records

    A pragma line is a dictionary with a ['title'] and a ['tag']; the tag is
    a literal or, for field lines, a nested dictionary (see [make_config]). *)

#[warnings="-register-all"]
Inductive value :=
  | VStr (s : string)
  | VDict (d : gmap string value).

Fixpoint value_eq_dec (v w : value) {struct v} : Decision (v = w).
Proof.
  refine (match v, w with
          | VStr s, VStr t => cast_if (decide (s = t))
          | VDict d, VDict e =>
              cast_if (@decide (d = e)
                         (@gmap_eq_dec string _ _ value value_eq_dec d e))
          | _, _ => right _
          end); congruence.
Defined.
#[global] Instance value_eqdec : EqDecision value := value_eq_dec.

Abbreviation row := (gmap string value).
Abbreviation pragma_group := (list (gmap string value)).

(** ** Elements

    [BaseElement] lives in [xml_obj.py]; the collector and the package use
    only its [name], its [pv] and the groups returned by [config_by_pv()]. *)

Record Element := {
  name : string;
  pv : string;
  config_by_pv : list (list (gmap string value));
  has_config : bool
}.

#[global] Instance Element_eq_dec : EqDecision Element.
Proof. solve_decision. Defined.

(** ** ElementCollector (a [dict] subclass) *)

Module ElementCollector.

(** [add]: [name = value.name; dict.__setitem__(self, name, value)]. *)
Definition add (self : gmap string Element) (value : Element)
  : gmap string Element :=
  let name := name value in
  <[name := value]> self.

(** [registered]: the entries whose element carries configuration. *)
Definition registered (self : gmap string Element) : gmap string Element :=
  filter (fun kv => has_config kv.2 = true) self.

End ElementCollector.

(** ** PvPackage *)

(** A rule line is an [OrderedDict] from a required term to the key path
    at which a row must hold it. *)
Abbreviation rule_line := (list (string * list string)).

(** Object identities, and the bound methods stored in the guess table. *)
Abbreviation obj_id := nat.

Inductive method :=
  | bound_set_version (self : obj_id).

#[global] Instance method_eq_dec : EqDecision method.
Proof. solve_decision. Defined.

Record PvPackage := {
  _all_req_fields : gmap string (list (list (string * list string)));
  _all_guess_methods : gmap string (gmap nat (list method));
  _all_use_proto : gmap string bool;
  target_path : list Element;
  pragma : list (gmap string value);
  pv_partial : value;
  prefix : string;
  pv_complete : string;
  proto_name : option string;
  proto_file_name : option string;
  guessing_applied : bool;
  version : string;
  req_fields : list (list (string * list string));
  guess_methods : gmap nat (list method);
  use_proto : bool
}.

(** The three tables of [define_versions]. *)
Definition legacy_req_fields : list rule_line :=
  [ [("pv", ["title"])];
    [("type", ["title"])];
    [("str", ["title"])];
    [("io", ["title"])];
    [("field", ["title"]); ("DTYP", ["tag"; "f_name"])];
    [("field", ["title"]); ("SCAN", ["tag"; "f_name"])];
    [("field", ["title"]); ("INP", ["tag"; "f_name"])] ].

Definition define_versions (self : obj_id)
  : gmap string (list rule_line) * gmap string (gmap nat (list method))
    * gmap string bool :=
  ( {[ "legacy" := legacy_req_fields ]},
    {[ "legacy" :=
         {[ 1 := [bound_set_version self];
            2 := [];
            3 := [];
            4 := [];
            5 := [];
            6 := [] ]} ]},
    {[ "legacy" := true ]} ).

(** [deepcopy] of a pragma group, on values: the copy has the same
    contents.  Its effect on the store is the subject of [Store] below. *)
Definition deepcopy_value (p : pragma_group) : pragma_group := p.

(** The scan for the pv line: [pv] is unbound ([None]) until a row titled
    ['pv'] assigns it, and every later such row assigns it again. *)
Definition scan_pv_row (pv : option value) (r : row) : result (option value) :=
  title ← getitem r "title";
  if bool_decide ((title : value) = VStr "pv")
  then tag ← getitem r "tag"; mret (Some tag)
  else mret pv.

Definition scan_pv (p : pragma_group) : result (option value) :=
  for_each scan_pv_row None p.

(** [prefix += entry.pv + ":"] over [target_path[:-1]]. *)
Definition build_prefix (path : list Element) : string :=
  foldl (fun acc entry => acc +:+ (pv entry +:+ ":")) "" (removelast path).

(** [str + x]: only strings concatenate. *)
Definition str_add_value (a : string) (b : value) : result string :=
  match b with
  | VStr s => Ok (a +:+ s)
  | VDict _ => Raise TypeError
  end.

Definition __init__ (self : obj_id) (target_path : list Element)
    (pragma : pragma_group) (proto_name proto_file_name : option string)
    (use_proto : bool) (version : string) : result PvPackage :=
  let '(all_req, all_guess, all_proto) := define_versions self in
  let pragma' := deepcopy_value pragma in
  found ← scan_pv pragma';
  pv ← match found with
       | Some v => Ok v
       | None => Raise UnboundLocalError
       end;
  let prefix := build_prefix target_path in
  complete ← str_add_value prefix pv;
  (* set_version *)
  req ← getitem all_req version;
  guess ← getitem all_guess version;
  proto ← getitem all_proto version;
  mret {| _all_req_fields := all_req;
          _all_guess_methods := all_guess;
          _all_use_proto := all_proto;
          target_path := target_path;
          pragma := pragma';
          pv_partial := pv;
          prefix := prefix;
          pv_complete := complete;
          proto_name := proto_name;
          proto_file_name := proto_file_name;
          guessing_applied := false;
          version := version;
          req_fields := req;
          guess_methods := guess;
          use_proto := proto |}.

(** *** Rule matching *)

(** [target = target[page]] along [req_location]: a missing key raises
    [KeyError], indexing a string with a key raises [TypeError]. *)
Fixpoint walk (target : value) (req_location : list string) : result value :=
  match req_location with
  | [] => Ok target
  | page :: rest =>
      match target with
      | VDict d =>
          match d !! page with
          | Some t => walk t rest
          | None => Raise KeyError
          end
      | VStr _ => Raise TypeError
      end
  end.

(** The inner loop of [term_exists] for one row: the value of [valid]
    when the loop is left.  Only [KeyError] is caught. *)
Fixpoint row_valid (r : row) (req_line : rule_line) : result bool :=
  match req_line with
  | [] => Ok true
  | (req_term, req_location) :: rest =>
      match walk (VDict r) req_location with
      | Ok target =>
          if bool_decide (target = VStr req_term)
          then row_valid r rest
          else Ok false
      | Raise KeyError => Ok false
      | Raise e => Raise e
      end
  end.

Fixpoint term_exists_in (p : pragma_group) (req_line : rule_line)
  : result bool :=
  match p with
  | [] => Ok false
  | r :: p' =>
      match row_valid r req_line with
      | Ok true => Ok true
      | Ok false => term_exists_in p' req_line
      | Raise e => Raise e
      end
  end.

Definition term_exists (self : PvPackage) (req_line : rule_line)
  : result bool :=
  term_exists_in (pragma self) req_line.

Definition missing_pragma_lines (self : PvPackage) : result (list rule_line) :=
  for_each (fun rejection_list req_line =>
              found ← term_exists self req_line;
              if negb (found : bool)
              then mret (rejection_list ++ [req_line])
              else mret rejection_list)
           [] (req_fields self).

Definition is_config_complete (self : PvPackage) : result bool :=
  missing ← missing_pragma_lines self;
  if Nat.eqb (length (missing : list rule_line)) 0 then mret true else mret false.

(** [make_config]. *)
Definition make_config (title setting : string) (field : bool) : row :=
  if field
  then {[ "title" := VStr "field";
          "tag" := VDict {[ "f_name" := VStr title;
                            "f_set" := VStr setting ]} ]}
  else {[ "title" := VStr title; "tag" := VStr setting ]}.

(** *** Equality *)

(** The values an attribute of a package can hold. *)
Inductive attr :=
  | AReqTable (t : gmap string (list (list (string * list string))))
  | AGuessTable (t : gmap string (gmap nat (list method)))
  | AProtoTable (t : gmap string bool)
  | APath (p : list Element)
  | APragma (p : list (gmap string value))
  | AValue (v : value)
  | AStr (s : string)
  | AOptStr (s : option string)
  | ABool (b : bool)
  | ARules (r : list (list (string * list string)))
  | AGuess (g : gmap nat (list method)).

#[global] Instance attr_eq_dec : EqDecision attr.
Proof. solve_decision. Defined.

(** [self.__dict__] of a constructed package. *)
Definition obj_dict (self : PvPackage) : gmap string attr :=
  list_to_map
    [ ("_all_req_fields", AReqTable (_all_req_fields self));
      ("_all_guess_methods", AGuessTable (_all_guess_methods self));
      ("_all_use_proto", AProtoTable (_all_use_proto self));
      ("target_path", APath (target_path self));
      ("pragma", APragma (pragma self));
      ("pv_partial", AValue (pv_partial self));
      ("prefix", AStr (prefix self));
      ("pv_complete", AStr (pv_complete self));
      ("proto_name", AOptStr (proto_name self));
      ("proto_file_name", AOptStr (proto_file_name self));
      ("guessing_applied", ABool (guessing_applied self));
      ("version", AStr (version self));
      ("req_fields", ARules (req_fields self));
      ("guess_methods", AGuess (guess_methods self));
      ("use_proto", ABool (use_proto self)) ].

Definition skip : list string :=
  [ "_all_req_fields";
    "_all_req_vars";
    "_all_guess_methods";
    "req_fields";
    "req_vars";
    "guess_methods" ].

Definition __eq__ (self other : PvPackage) : bool :=
  let s_dict := filter (fun kv => kv.1 ∉ skip) (obj_dict self) in
  let o_dict := filter (fun kv => kv.1 ∉ skip) (obj_dict other) in
  bool_decide (s_dict = o_dict).

(** *** Chain assembly and package production

    [BaseElement.parse_pragma] and [freeze_pv] belong to [xml_obj.py];
    the two class methods below are defined for any such pair. *)

Definition list_getitem {A} (l : list A) (i : nat) : result A :=
  match l !! i with
  | Some x => Ok x
  | None => Raise IndexError
  end.

(** [needle in container] for the containers an io line can be. *)
Fixpoint is_substring (sub s : string) : bool :=
  String.prefix sub s
  || match s with
     | EmptyString => false
     | String _ s' => is_substring sub s'
     end.

Definition py_in (needle : string) (container : option value) : result bool :=
  match container with
  | None => Raise TypeError
  | Some (VStr s) => Ok (is_substring needle s)
  | Some (VDict d) => Ok (bool_decide (is_Some (d !! needle)))
  end.

(** ["Set" + base_proto_name]. *)
Definition str_add (a : string) (b : option string) : result string :=
  match b with
  | Some s => Ok (a +:+ s)
  | None => Raise TypeError
  end.

(** [use_proto] left at [None] is guessed from the two names. *)
Definition resolve_use_proto (use_proto : option bool)
    (base_proto_name proto_file_name : option string) : bool :=
  match use_proto with
  | None =>
      if bool_decide (base_proto_name <> None)
         || bool_decide (proto_file_name <> None)
      then true
      else false
  | Some b => b
  end.

(** What [from_element_path] returns. *)
Inductive produced :=
  | packages (pvpacks_output_list : list PvPackage)
  | packages_and_rejects (pvpacks_output_list : list PvPackage)
      (reject_list : list (PvPackage * list (list (string * list string)))).

Definition accepted (p : produced) : list PvPackage :=
  match p with
  | packages l => l
  | packages_and_rejects l _ => l
  end.

Section Assembly.

Variable parse_pragma : string -> list (gmap string value) -> option value.
Variable freeze_pv : Element -> option value -> Element.

Definition new_elements_of (target : Element) : list Element :=
  map (fun config_set =>
         let pv_line := parse_pragma "pv" config_set in
         let element_copy := target in
         freeze_pv element_copy pv_line)
      (config_by_pv target).

(** The body of the doubly nested loop, for one [chain_idx] and one
    [new_elem_idx]. *)
Definition chain_step (new_elements : list Element) (chain_idx : nat)
    (progress_chain : list (list Element)) (new_elem_idx : nat)
  : result (list (list Element)) :=
  pc1 ← (if Nat.eqb new_elem_idx 0
         then c ← list_getitem progress_chain chain_idx;
              e ← list_getitem new_elements new_elem_idx;
              mret (<[chain_idx := c ++ [e]]> progress_chain)
         else mret progress_chain);
  if Nat.ltb 0 new_elem_idx
  then c ← list_getitem pc1 chain_idx;
       e ← list_getitem new_elements new_elem_idx;
       mret (pc1 ++ [c ++ [e]])
  else mret pc1.

Definition extend_chains (new_elements : list Element)
    (progress_chain : list (list Element)) : result (list (list Element)) :=
  for_each (fun pc chain_idx =>
              for_each (chain_step new_elements chain_idx) pc
                       (seq 0 (length new_elements)))
           progress_chain (seq 0 (length progress_chain)).

Definition first_tier (new_elements : list Element)
    (progress_chain : list (list Element)) : result (list (list Element)) :=
  for_each (fun pc new_elem_idx =>
              e ← list_getitem new_elements new_elem_idx;
              mret (pc ++ [[e]]))
           progress_chain (seq 0 (length new_elements)).

Fixpoint assemble_package_chains (target_path : list Element)
    (progress_chain : option (list (list Element)))
  : result (list (list Element)) :=
  let progress_chain :=
    match progress_chain with
    | None => []
    | Some pc => pc
    end in
  match target_path with
  | [] => Raise IndexError
  | target :: rest =>
      let new_elements := new_elements_of target in
      pc1 ← extend_chains new_elements progress_chain;
      pc2 ← (if Nat.eqb (length pc1) 0
             then first_tier new_elements pc1
             else mret pc1);
      if Nat.eqb (length target_path) 1
      then mret pc2
      else assemble_package_chains rest (Some pc2)
  end.

(** The [try] block choosing the stub name; [proto_name] is the local
    variable, [None] while it is unbound. *)
Definition choose_proto_name (base_proto_name : option string)
    (io_line : option value) (proto_name : option (option string))
  : result (option (option string)) :=
  let attempt :=
    has_o ← py_in "o" io_line;
    if (has_o : bool)
    then n ← str_add "Set" base_proto_name; mret (Some (Some n))
    else has_i ← py_in "i" io_line;
         if (has_i : bool)
         then n ← str_add "Get" base_proto_name; mret (Some (Some n))
         else mret proto_name in
  match attempt with
  | Ok st => Ok st
  | Raise TypeError => Ok (Some base_proto_name)
  | Raise e => Raise e
  end.

(** The loop state of [from_element_path]. *)
Record fep_state := {
  st_proto_name : option (option string);
  st_proto_file_name : option string;
  st_output : list PvPackage;
  st_next : obj_id
}.

Definition fep_body (target_path : list Element)
    (base_proto_name : option string) (use_proto : bool)
    (st : fep_state) (config_set : list (gmap string value))
  : result fep_state :=
  '(pn, pfn) ←
    (if use_proto
     then let io_line := parse_pragma "io" config_set in
          pn ← choose_proto_name base_proto_name io_line (st_proto_name st);
          mret (pn, st_proto_file_name st)
     else mret (Some None, None));
  proto_name ← match pn with
               | Some n => Ok n
               | None => Raise UnboundLocalError
               end;
  new_pvpack ← __init__ (st_next st) target_path config_set
                        proto_name pfn use_proto "legacy";
  mret {| st_proto_name := pn;
          st_proto_file_name := pfn;
          st_output := st_output st ++ [new_pvpack];
          st_next := S (st_next st) |}.

(** The packages are built from the groups of the last element alone.
    The loop before it, which deep-copies every element of the path once
    per group and drops the copy, leaves no trace and is not shown.
    [next_id] is the identity the first new object receives. *)
Definition from_element_path (next_id : obj_id) (target_path : list Element)
    (base_proto_name proto_file_name : option string)
    (use_proto : option bool) (return_rejects : bool) : result produced :=
  let pvpacks_output_list : list PvPackage := [] in
  let reject_list : list (PvPackage * list rule_line) := [] in
  let use_proto :=
    resolve_use_proto use_proto base_proto_name proto_file_name in
  last_element ← match last target_path with
                 | Some e => Ok e
                 | None => Raise IndexError
                 end;
  st ← for_each (fep_body target_path base_proto_name use_proto)
         {| st_proto_name := None;
            st_proto_file_name := proto_file_name;
            st_output := pvpacks_output_list;
            st_next := next_id |}
         (config_by_pv last_element);
  if return_rejects
  then mret (packages_and_rejects (st_output st) reject_list)
  else mret (packages (st_output st)).

End Assembly.

(** Modelled from the spec: [BaseElement.parse_pragma] is defined in
    [xml_obj.py], which is not part of the sources.  It yields the tag of
    the line of the group carrying the given title, and [None] when the
    group has no such line. *)
Definition parse_pragma (title : string) (config_set : list (gmap string value))
  : option value :=
  r ← list_find (fun r : gmap string value => r !! "title" = Some (VStr title))
                config_set;
  r.2 !! "tag".

(** Modelled from the spec: [freeze_pv] is defined in [xml_obj.py], which
    is not part of the sources.  It binds the pv contribution of the
    chosen group into the element copy. *)
Definition freeze_pv (e : Element) (pv_line : option value) : Element :=
  match pv_line with
  | Some (VStr s) =>
      {| name := name e; pv := s;
         config_by_pv := config_by_pv e; has_config := has_config e |}
  | _ => e
  end.

(** ** The store: [self.pragma = deepcopy(pragma)]

    Lists and dictionaries are mutable objects at addresses of a heap;
    strings are immutable and held by value.  [deepcopy] rebuilds every
    list and dictionary it reaches at a fresh address.  Its memo table,
    which only matters for cyclic or shared structure, is left out, so the
    traversal is bounded by a depth instead. *)

Module Store.

Abbreviation loc := nat.

Inductive pval :=
  | PStr (s : string)
  | PRef (l : loc).

Inductive obj :=
  | OList (items : list pval)
  | ODict (d : gmap string pval).

Abbreviation heap := (list obj).

#[global] Instance pval_eq_dec : EqDecision pval.
Proof. solve_decision. Defined.

#[global] Instance obj_eq_dec : EqDecision obj.
Proof. solve_decision. Defined.

Definition alloc (h : heap) (o : obj) : heap * pval :=
  (h ++ [o], PRef (length h)).

Section Traverse.

Variable copy_one : heap -> pval -> option (heap * pval).

Fixpoint copy_items (h : heap) (items : list pval)
  : option (heap * list pval) :=
  match items with
  | [] => Some (h, [])
  | x :: xs =>
      '(h1, x') ← copy_one h x;
      '(h2, xs') ← copy_items h1 xs;
      Some (h2, x' :: xs')
  end.

Fixpoint copy_entries (h : heap) (entries : list (string * pval))
  : option (heap * list (string * pval)) :=
  match entries with
  | [] => Some (h, [])
  | (k, x) :: es =>
      '(h1, x') ← copy_one h x;
      '(h2, es') ← copy_entries h1 es;
      Some (h2, (k, x') :: es')
  end.

End Traverse.

Fixpoint deepcopy (depth : nat) (h : heap) (x : pval)
  : option (heap * pval) :=
  match x with
  | PStr s => Some (h, PStr s)
  | PRef l =>
      match depth with
      | 0 => None
      | S n =>
          match h !! l with
          | None => None
          | Some (OList items) =>
              '(h1, items') ← copy_items (deepcopy n) h items;
              Some (alloc h1 (OList items'))
          | Some (ODict d) =>
              '(h1, es) ← copy_entries (deepcopy n) h (map_to_list d);
              Some (alloc h1 (ODict (list_to_map es)))
          end
      end
  end.

(** [copy(x)]: a new outer object holding the same references. *)
Definition shallow_copy (h : heap) (x : pval) : option (heap * pval) :=
  match x with
  | PStr s => Some (h, PStr s)
  | PRef l => o ← h !! l; Some (alloc h o)
  end.



(** The references an object holds, and the addresses reachable from a
    reference. *)
Definition refs (o : obj) : list pval :=
  match o with
  | OList items => items
  | ODict d => (map_to_list d).*2
  end.

Inductive reach (h : heap) : pval -> loc -> Prop :=
  | reach_root l : reach h (PRef l) l
  | reach_step l o x a :
      h !! l = Some o -> x ∈ refs o -> reach h x a -> reach h (PRef l) a.







End Store.

(** ** Reference notions used to state the properties *)

(** The value found at a key path inside a value, if the path exists. *)
Fixpoint lookup_path (v : value) (path : list string) : option value :=
  match path with
  | [] => Some v
  | key :: rest =>
      match v with
      | VDict d => t ← d !! key; lookup_path t rest
      | VStr _ => None
      end
  end.

(** A row satisfies a rule line when each required term is the value at
    its key path. *)
Definition satisfies (r : row) (req_line : rule_line) : Prop :=
  Forall (fun term => lookup_path (VDict r) term.2 = Some (VStr term.1))
         req_line.

#[global] Instance satisfies_dec r req_line : Decision (satisfies r req_line).
Proof. unfold satisfies. apply _. Defined.

(** A key path steps into a literal of the row. *)
Definition hits_literal (r : row) (path : list string) : Prop :=
  walk (VDict r) path = Raise TypeError.

(** Checking the terms of the rule line in order, up to the first one the
    row does not satisfy, reaches a key path that steps into a literal. *)
Fixpoint reaches_literal (r : row) (req_line : rule_line) : Prop :=
  match req_line with
  | [] => False
  | term :: rest =>
      hits_literal r term.2
      \/ (lookup_path (VDict r) term.2 = Some (VStr term.1)
          /\ reaches_literal r rest)
  end.

Definition path_safe (r : row) (req_line : rule_line) : Prop :=
  ~ reaches_literal r req_line.

#[global] Instance reaches_literal_dec r req_line :
  Decision (reaches_literal r req_line).
Proof.
  induction req_line as [|term rest IH]; simpl; unfold hits_literal; apply _.
Defined.

#[global] Instance path_safe_dec r req_line : Decision (path_safe r req_line).
Proof. unfold path_safe. apply _. Defined.

(** Rows typed as the pragma parser types them: the tag of a field line
    is a dictionary. *)
Definition field_tag_is_dict (r : row) : Prop :=
  r !! "title" = Some (VStr "field") ->
  exists d, r !! "tag" = Some (VDict d).



(** How the stub fields of a package relate to the group it is made of. *)
Definition stub_fields
    (parse : string -> list (gmap string value) -> option value)
    (base_proto_name : option string) (use_proto : bool)
    (config_set : pragma_group) (pk : PvPackage) : Prop :=
  pragma pk = config_set
  /\ (use_proto = true -> forall b, base_proto_name = Some b ->
      match parse "io" config_set with
      | None => proto_name pk = Some b
      | Some (VStr s) =>
          (is_substring "o" s = true -> proto_name pk = Some ("Set" +:+ b))
          /\ (is_substring "o" s = false -> is_substring "i" s = true ->
              proto_name pk = Some ("Get" +:+ b))
      | Some (VDict _) => True
      end)
  /\ (use_proto = false ->
      proto_name pk = None /\ proto_file_name pk = None).

(** The attributes of a package outside the skip list. *)
Definition compared_attrs (self : PvPackage) : gmap string attr :=
  list_to_map
    [ ("_all_use_proto", AProtoTable (_all_use_proto self));
      ("target_path", APath (target_path self));
      ("pragma", APragma (pragma self));
      ("pv_partial", AValue (pv_partial self));
      ("prefix", AStr (prefix self));
      ("pv_complete", AStr (pv_complete self));
      ("proto_name", AOptStr (proto_name self));
      ("proto_file_name", AOptStr (proto_file_name self));
      ("guessing_applied", ABool (guessing_applied self));
      ("version", AStr (version self));
      ("use_proto", ABool (use_proto self)) ].

(** The concatenation of a list of strings. *)
Definition join (l : list string) : string := foldr String.append "" l.

(** The product of a list of numbers. *)
Definition product (l : list nat) : nat := foldr Nat.mul 1 l.

(** ** Sample data

    The elements of [test_ElementCollector_add], and the chain of the
    example scenario: a container and a leaf with two groups, the first
    lacking its [str] and [field] lines. *)

Definition iterator : Element :=
  {| name := "iterator"; pv := "it"; config_by_pv := []; has_config := true |}.


Definition VERSION : Element :=
  {| name := "VERSION"; pv := "v"; config_by_pv := []; has_config := false |}.

Definition groupA : pragma_group :=
  [ make_config "pv" "count" false;
    make_config "type" "ai" false;
    make_config "io" "i" false ].

Definition groupB : pragma_group :=
  [ make_config "pv" "limit" false;
    make_config "type" "ao" false;
    make_config "str" "%d" false;
    make_config "io" "o" false;
    make_config "DTYP" "stream" true;
    make_config "SCAN" "1 second" true;
    make_config "INP" "@file.proto" true ].

Definition Container : Element :=
  {| name := "MAIN"; pv := "MAIN";
     config_by_pv := [[make_config "pv" "MAIN" false]];
     has_config := true |}.

Definition Leaf : Element :=
  {| name := "leaf"; pv := "leaf";
     config_by_pv := [groupA; groupB];
     has_config := true |}.

(** A leaf whose groups carry a pv line and an io line. *)
Definition io_group (io : string) : pragma_group :=
  [make_config "pv" "x" false; make_config "io" io false].

Definition io_leaf (groups : list pragma_group) : Element :=
  {| name := "leaf"; pv := "leaf"; config_by_pv := groups;
     has_config := true |}.

(** A heap holding the group [[pv: count; field: DTYP stream]] at
    address 3. *)
Definition sample_heap : list Store.obj :=
  [ Store.ODict {[ "title" := Store.PStr "pv"; "tag" := Store.PStr "count" ]};
    Store.ODict {[ "f_name" := Store.PStr "DTYP";
                   "f_set" := Store.PStr "stream" ]};
    Store.ODict {[ "title" := Store.PStr "field"; "tag" := Store.PRef 1 ]};
    Store.OList [Store.PRef 0; Store.PRef 2] ].


(** * Properties *)

(** ** Auxiliary facts *)

Lemma bind_Ok {A B} (m : result A) (f : A -> result B) y :
  m ≫= f = Ok y <-> exists x, m = Ok x /\ f x = Ok y.
Proof.
  destruct m as [x|e]; cbn; split.
  - eauto.
  - by intros (? & [= ->] & ?).
  - done.
  - by intros (? & ? & ?).
Qed.

Lemma string_app_cons ch (a b : string) :
  String ch a +:+ b = String ch (a +:+ b).
Proof. reflexivity. Qed.

Lemma string_app_assoc (a b c : string) : (a +:+ b) +:+ c = a +:+ (b +:+ c).
Proof.
  induction a as [|ch a IH]; [done|]. rewrite !string_app_cons. by f_equal.
Qed.

Lemma string_app_empty_r (a : string) : a +:+ "" = a.
Proof.
  induction a as [|ch a IH]; [done|]. rewrite string_app_cons. by f_equal.
Qed.

Lemma join_snoc l x : join (l ++ [x]) = join l +:+ x.
Proof.
  induction l as [|y l IH]; simpl.
  - apply string_app_empty_r.
  - rewrite IH. by rewrite string_app_assoc.
Qed.

(** The loop building the prefix yields the joined fragments. *)
Lemma build_prefix_join path :
  build_prefix path = join (map (fun e => pv e +:+ ":") (removelast path)).
Proof.
  unfold build_prefix.
  induction (removelast path) as [|e l IH] using rev_ind; [done|].
  rewrite foldl_snoc, map_app. simpl. by rewrite join_snoc, IH.
Qed.

(** What a successful construction has stored. *)
Lemma init_inv self tp pr pn pfn up ver pk :
  __init__ self tp pr pn pfn up ver = Ok pk ->
  exists s req guess proto,
    scan_pv pr = Ok (Some (VStr s))
    /\ (define_versions self).1.1 !! ver = Some req
    /\ (define_versions self).1.2 !! ver = Some guess
    /\ (define_versions self).2 !! ver = Some proto
    /\ pk = {| _all_req_fields := (define_versions self).1.1;
               _all_guess_methods := (define_versions self).1.2;
               _all_use_proto := (define_versions self).2;
               target_path := tp;
               pragma := pr;
               pv_partial := VStr s;
               prefix := build_prefix tp;
               pv_complete := build_prefix tp +:+ s;
               proto_name := pn;
               proto_file_name := pfn;
               guessing_applied := false;
               version := ver;
               req_fields := req;
               guess_methods := guess;
               use_proto := proto |}.
Proof.
  unfold __init__, deepcopy_value. cbn -[scan_pv build_prefix].
  intros H.
  apply bind_Ok in H as (found & Hscan & H).
  apply bind_Ok in H as (v & Hv & H).
  destruct found as [v'|]; [injection Hv as ->|done].
  apply bind_Ok in H as (c & Hc & H).
  destruct v as [s|]; [injection Hc as <-|done].
  apply bind_Ok in H as (req & Hreq & H).
  apply bind_Ok in H as (guess & Hguess & H).
  apply bind_Ok in H as (proto & Hproto & H).
  unfold getitem in *.
  exists s, req, guess, proto.
  destruct (_ !! ver) eqn:E1 in Hreq; [injection Hreq as ->|done].
  destruct (_ !! ver) eqn:E2 in Hguess; [injection Hguess as ->|done].
  destruct (_ !! ver) eqn:E3 in Hproto; [injection Hproto as ->|done].
  injection H as <-. done.
Qed.


(** ** ElementCollector *)



(** The run of [test_ElementCollector_add]. *)
Example collector_add_twice :
  let col := ElementCollector.add
               (ElementCollector.add (ElementCollector.add ∅ iterator) VERSION)
               VERSION in
  size col = 2 /\ col !! "iterator" = Some iterator
  /\ col !! "VERSION" = Some VERSION.
Proof. vm_compute. done. Qed.

(** ** The complete pv name *)

(** C3: the complete pv of a constructed package is the pv of every
    element of the path but the last, each followed by a colon, followed
    by the partial pv; it is fixed by the path and the group alone. *)
Theorem pv_complete_spec self tp pr pn pfn up ver pk :
  __init__ self tp pr pn pfn up ver = Ok pk ->
  (exists s,
      pv_partial pk = VStr s
      /\ pv_complete pk
         = join (map (fun e => pv e +:+ ":") (removelast tp)) +:+ s)
  /\ (forall self' pn' pfn' up' ver' pk',
         __init__ self' tp pr pn' pfn' up' ver' = Ok pk' ->
         pv_complete pk' = pv_complete pk).
Proof.
  intros H. apply init_inv in H as (s & req & guess & proto & Hs & _ & _ & _ & ->).
  split.
  - exists s. cbn. by rewrite build_prefix_join.
  - intros self' pn' pfn' up' ver' pk' H'.
    apply init_inv in H' as (s' & ? & ? & ? & Hs' & _ & _ & _ & ->).
    cbn. congruence.
Qed.

Lemma pv_complete_witness :
  exists pk,
    __init__ 0 [Container; Leaf] groupB None None true "legacy" = Ok pk
    /\ pv_complete pk = "MAIN:limit".
Proof.
  eexists. split; [vm_compute; reflexivity|].
  match goal with
  | |- pv_complete ?pk = _ =>
      destruct (pv_complete_spec 0 [Container; Leaf] groupB None None true
                  "legacy" pk) as [(s & Hs & Hc) _];
      [vm_compute; reflexivity|]
  end.
  rewrite Hc. simpl in Hs. injection Hs as <-. reflexivity.
Defined.

(** ** The pv line of a group *)







(** A group without a pv row does fail, with the error of an unbound
    local. *)
Example no_pv_row_fails :
  __init__ 0 [Leaf] [make_config "type" "ai" false] None None true "legacy"
  = Raise UnboundLocalError.
Proof. reflexivity. Qed.

(** ** Rule matching *)

(** [walk] finds what [lookup_path] finds, and raises when there is
    nothing to find. *)
Lemma walk_lookup_path v path :
  match walk v path with
  | Ok t => lookup_path v path = Some t
  | Raise e => lookup_path v path = None /\ (e = KeyError \/ e = TypeError)
  end.
Proof.
  revert v. induction path as [|key rest IH]; intros v; simpl; [done|].
  destruct v as [s|d]; [by auto|].
  destruct (d !! key) as [t|] eqn:E; simpl; [apply IH|by auto].
Qed.

Lemma row_valid_safe r req_line :
  path_safe r req_line ->
  row_valid r req_line = Ok (bool_decide (satisfies r req_line)).
Proof.
  unfold path_safe, satisfies, hits_literal.
  induction req_line as [|[term path] rest IH]; intros Hsafe.
  - reflexivity.
  - simpl in Hsafe. unfold hits_literal in Hsafe. cbn [row_valid].
    pose proof (walk_lookup_path (VDict r) path) as Hw.
    destruct (walk (VDict r) path) as [t|e].
    + destruct (decide (t = VStr term)) as [->|Hne].
      * rewrite (bool_decide_eq_true_2 (VStr term = VStr term)) by done.
        rewrite IH by tauto. f_equal. apply bool_decide_ext.
        rewrite Forall_cons. simpl. tauto.
      * rewrite (bool_decide_eq_false_2 (t = VStr term)) by done.
        symmetry. f_equal. apply bool_decide_eq_false_2.
        rewrite Forall_cons. simpl. intros [? _]. congruence.
    + destruct Hw as [Hnone [-> | ->]]; [|tauto].
      symmetry. f_equal. apply bool_decide_eq_false_2.
      rewrite Forall_cons. simpl. intros [? _]. congruence.
Qed.

(** The rule lines of the legacy table never step into a literal of a
    row whose field tags are dictionaries. *)
Lemma legacy_path_safe r req_line :
  req_line ∈ legacy_req_fields -> field_tag_is_dict r -> path_safe r req_line.
Proof.
  intros Hin Hr. unfold legacy_req_fields in Hin.
  assert (Htitle : forall path, path = ["title"] -> ~ hits_literal r path).
  { intros path ->. unfold hits_literal. simpl. by destruct (r !! "title"). }
  assert (Htag : r !! "title" = Some (VStr "field") ->
                 ~ hits_literal r ["tag"; "f_name"]).
  { intros Ht. destruct (Hr Ht) as [d Hd]. unfold hits_literal. simpl.
    rewrite Hd. by destruct (d !! "f_name"). }
  assert (Hfield : lookup_path (VDict r) ["title"] = Some (VStr "field") ->
                   r !! "title" = Some (VStr "field")).
  { simpl. by destruct (r !! "title"). }
  unfold path_safe.
  repeat (apply elem_of_cons in Hin as [->|Hin]);
    [..|by apply elem_of_nil in Hin]; simpl;
    intros H; repeat destruct H as [H|[? H]]; try done;
    try (by eapply Htitle); by eapply Htag; auto.
Qed.

Lemma term_exists_in_safe p req_line :
  Forall (fun r => path_safe r req_line) p ->
  term_exists_in p req_line
  = Ok (bool_decide (Exists (fun r => satisfies r req_line) p)).
Proof.
  induction 1 as [|r p Hr _ IH]; simpl.
  - reflexivity.
  - rewrite (row_valid_safe _ _ Hr).
    destruct (decide (satisfies r req_line)) as [Hsat|Hsat].
    + rewrite (bool_decide_eq_true_2 (satisfies r req_line)) by done.
      symmetry. f_equal. apply bool_decide_eq_true_2. by left.
    + rewrite (bool_decide_eq_false_2 (satisfies r req_line)) by done.
      rewrite IH. f_equal. apply bool_decide_ext.
      rewrite Exists_cons. tauto.
Qed.



(** The same with a rule line of the legacy table, on a field line made
    with a literal setting. *)
Example term_exists_literal_field :
  term_exists_in
    [make_config "field" "x" false; make_config "DTYP" "stream" true]
    [("field", ["title"]); ("DTYP", ["tag"; "f_name"])]
  = Raise TypeError.
Proof. reflexivity. Qed.


(** ** Missing rule lines *)

Lemma missing_loop (self : PvPackage) rules acc :
  for_each (fun rejection_list req_line =>
              found ← term_exists self req_line;
              if negb (found : bool)
              then mret (rejection_list ++ [req_line])
              else mret rejection_list) acc rules
  = match mapM (term_exists self) rules with
    | Ok _ =>
        Ok (acc ++ filter (fun r => term_exists self r = Ok false) rules)
    | Raise e => Raise e
    end.
Proof.
  revert acc. induction rules as [|r rules IH]; intros acc; simpl.
  - by rewrite app_nil_r.
  - rewrite filter_cons.
    destruct (term_exists self r) as [[|]|e]; simpl; [| |done].
    + rewrite IH. by destruct (mapM _ rules).
    + rewrite IH.
      destruct (mapM _ rules); simpl; [|done]. by rewrite <- app_assoc.
Qed.

Lemma mapM_Ok_Forall {A B} (f : A -> result B) l :
  (exists k, mapM f l = Ok k) <-> Forall (fun x => exists y, f x = Ok y) l.
Proof.
  induction l as [|x l IH]; simpl.
  - split; [constructor|by eexists].
  - rewrite Forall_cons, <- IH. destruct (f x) as [y|e]; simpl.
    + destruct (mapM f l) as [k|e]; simpl.
      * split; [eauto|by eexists].
      * split; [by intros [? ?]|by intros [_ [? ?]]].
    + split; [by intros [? ?]|by intros [[? ?] _]].
Qed.

Lemma missing_lines_filter (self : PvPackage) l :
  missing_pragma_lines self = Ok l <->
  Forall (fun r => exists b, term_exists self r = Ok b) (req_fields self)
  /\ l = filter (fun r => term_exists self r = Ok false) (req_fields self).
Proof.
  unfold missing_pragma_lines. rewrite missing_loop. simpl.
  rewrite <- mapM_Ok_Forall. destruct (mapM _ _) as [k|e].
  - split; [intros [= <-]; eauto|by intros [_ ->]].
  - split; [done|by intros [[? ?] _]].
Qed.



(** A constructed legacy package whose field tags are dictionaries has
    its missing lines computed without error. *)
Lemma missing_pragma_lines_total self tp pr pn pfn up pk :
  __init__ self tp pr pn pfn up "legacy" = Ok pk ->
  Forall field_tag_is_dict pr ->
  missing_pragma_lines pk
  = Ok (filter (fun r => term_exists pk r = Ok false) legacy_req_fields).
Proof.
  intros H Hrows.
  apply init_inv in H as (s & req & guess & proto & _ & Hreq & _ & _ & ->).
  simpl in Hreq. rewrite lookup_singleton_eq in Hreq. injection Hreq as <-.
  apply missing_lines_filter. split; [|done].
  cbn [req_fields]. apply Forall_forall. intros r Hr. eexists.
  unfold term_exists. apply term_exists_in_safe. cbn [pragma].
  eapply Forall_impl; [exact Hrows|]. intros row Hrow.
  by apply legacy_path_safe.
Qed.

(** ** Package production *)

Lemma init_fields self tp pr pn pfn up ver pk :
  __init__ self tp pr pn pfn up ver = Ok pk ->
  target_path pk = tp /\ pragma pk = pr
  /\ proto_name pk = pn /\ proto_file_name pk = pfn.
Proof.
  intros H. by apply init_inv in H as (? & ? & ? & ? & _ & _ & _ & _ & ->).
Qed.

Section Production.

Variable parse : string -> list (gmap string value) -> option value.

Lemma fep_body_inv tp base up st config_set st' :
  fep_body parse tp base up st config_set = Ok st' ->
  exists pk, st_output st' = st_output st ++ [pk]
             /\ stub_fields parse base up config_set pk.
Proof.
  unfold fep_body. intros H.
  apply bind_Ok in H as ([pn pfn] & Hpn & H).
  apply bind_Ok in H as (n & Hn & H).
  destruct pn as [n'|]; [injection Hn as ->|done].
  apply bind_Ok in H as (pk & Hpk & H).
  injection H as <-. simpl. exists pk. split; [done|].
  apply init_fields in Hpk as (_ & Hpr & Hname & Hfile).
  split; [done|]. destruct up; (split; [|done || intros _]).
  - intros _ b ->.
    apply bind_Ok in Hpn as (pn' & Hch & [= -> _]).
    unfold choose_proto_name in Hch.
    destruct (parse "io" config_set) as [[s|d]|]; simpl in *; [|done|].
    + destruct (is_substring "o" s); simpl in *.
      * injection Hch as <-. split; [done|by intros].
      * split; [done|]. intros _ Hi. rewrite Hi in Hch. simpl in Hch.
        by injection Hch as <-.
    + by injection Hch as <-.
  - done.
  - injection Hpn as <- <-. done.
Qed.

Lemma fep_loop_inv tp base up config_sets st st' :
  for_each (fep_body parse tp base up) st config_sets = Ok st' ->
  exists new, st_output st' = st_output st ++ new
              /\ Forall2 (stub_fields parse base up) config_sets new.
Proof.
  revert st. induction config_sets as [|c cs IH]; intros st H; simpl in H.
  - injection H as <-. exists []. by rewrite app_nil_r.
  - apply bind_Ok in H as (st1 & Hbody & H).
    apply fep_body_inv in Hbody as (pk & Hout & Hpk).
    apply IH in H as (new & Hout' & Hnew).
    exists (pk :: new). split; [|by constructor].
    rewrite Hout', Hout. by rewrite <- app_assoc.
Qed.

Lemma from_element_path_inv next tp base pfn up rr out :
  from_element_path parse next tp base pfn up rr = Ok out ->
  exists leaf,
    last tp = Some leaf
    /\ Forall2 (stub_fields parse base (resolve_use_proto up base pfn))
               (config_by_pv leaf) (accepted out)
    /\ out = if rr then packages_and_rejects (accepted out) []
             else packages (accepted out).
Proof.
  unfold from_element_path. intros H.
  apply bind_Ok in H as (leaf & Hleaf & H).
  destruct (last tp) as [leaf'|]; [injection Hleaf as ->|done].
  apply bind_Ok in H as (st & Hloop & H).
  apply fep_loop_inv in Hloop as (new & Hout & Hnew). simpl in Hout.
  exists leaf. destruct rr; injection H as <-; simpl; by rewrite Hout.
Qed.

(** C7, as the code has it: with stub usage in effect and a base name,
    the package of a group whose io value contains "o" is named "Set" +
    base, one whose io value contains "i" and no "o" is named "Get" +
    base, and one without io line carries the base name; when stub usage
    is not in effect, and so when nothing asks for it, both stub fields
    of every package are [None]. *)
Theorem stub_naming next tp base pfn up rr out leaf :
  from_element_path parse next tp base pfn up rr = Ok out ->
  last tp = Some leaf ->
  Forall2 (stub_fields parse base (resolve_use_proto up base pfn))
          (config_by_pv leaf) (accepted out)
  /\ (up = None -> base = None -> pfn = None ->
      Forall (fun pk => proto_name pk = None /\ proto_file_name pk = None)
             (accepted out)).
Proof.
  intros H Hleaf.
  apply from_element_path_inv in H as (leaf' & Hleaf' & Hall & _).
  assert (leaf' = leaf) as -> by congruence.
  split; [done|]. intros -> -> ->. simpl in Hall.
  induction Hall as [|c pk cs pks Hpk _ IH]; constructor; [|done].
  by apply Hpk.
Qed.

End Production.

Lemma stub_naming_witness :
  exists pk1 pk2 pk3,
    from_element_path parse_pragma 0
      [io_leaf [io_group "i"; io_group "o";
                [make_config "pv" "y" false]]]
      (Some "Foo") None None false
    = Ok (packages [pk1; pk2; pk3])
    /\ proto_name pk1 = Some "GetFoo"
    /\ proto_name pk2 = Some "SetFoo"
    /\ proto_name pk3 = Some "Foo".
Proof.
  do 3 eexists. split; [vm_compute; reflexivity|].
  match goal with
  | |- proto_name ?a = _ /\ proto_name ?b = _ /\ proto_name ?c = _ =>
      destruct (stub_naming parse_pragma 0
                  [io_leaf [io_group "i"; io_group "o";
                            [make_config "pv" "y" false]]]
                  (Some "Foo") None None false (packages [a; b; c])
                  (io_leaf [io_group "i"; io_group "o";
                            [make_config "pv" "y" false]]))
        as [H _]; [vm_compute; reflexivity|reflexivity|]
  end.
  simpl in H.
  apply Forall2_cons_1 in H as [(_ & H1 & _) H].
  apply Forall2_cons_1 in H as [(_ & H2 & _) H].
  apply Forall2_cons_1 in H as [(_ & H3 & _) _].
  split_and!.
  - by apply (H1 eq_refl "Foo" eq_refl).
  - by apply (H2 eq_refl "Foo" eq_refl).
  - by apply (H3 eq_refl "Foo" eq_refl).
Defined.

(** C7 fails as stated: the io value "io" contains "i", and the stub is
    named "Set" + base. *)
Lemma io_both_directions_is_set :
  is_substring "i" "io" = true
  /\ exists pk,
       from_element_path parse_pragma 0 [io_leaf [io_group "io"]]
         (Some "Foo") None None false
       = Ok (packages [pk])
       /\ proto_name pk = Some "SetFoo".
Proof.
  split; [reflexivity|]. eexists. split; [vm_compute; reflexivity|reflexivity].
Qed.

(** An io value with neither letter leaves the local [proto_name]
    unbound on the first group. *)
Example io_without_direction :
  from_element_path parse_pragma 0 [io_leaf [io_group "x"]]
    (Some "Foo") None None false
  = Raise UnboundLocalError.
Proof. reflexivity. Qed.

(** C1: on the chain of the example scenario, with rejects asked for, the
    package of the first group is incomplete and still in the accepted
    list, and the reject list is empty. *)
Theorem incomplete_package_accepted
    (parse : string -> list (gmap string value) -> option value) :
  exists count limit,
    from_element_path parse 0 [Container; Leaf] None None None true
    = Ok (packages_and_rejects [count; limit] [])
    /\ pv_complete count = "MAIN:count"
    /\ is_config_complete count = Ok false
    /\ missing_pragma_lines count
       = Ok [ [("str", ["title"])];
              [("field", ["title"]); ("DTYP", ["tag"; "f_name"])];
              [("field", ["title"]); ("SCAN", ["tag"; "f_name"])];
              [("field", ["title"]); ("INP", ["tag"; "f_name"])] ]
    /\ pv_complete limit = "MAIN:limit"
    /\ is_config_complete limit = Ok true.
Proof.
  do 2 eexists. split; [vm_compute; reflexivity|].
  split_and!; reflexivity.
Qed.

(** The reject list is empty whatever the chain. *)
Lemma reject_list_empty parse next tp base pfn up out :
  from_element_path parse next tp base pfn up true = Ok out ->
  out = packages_and_rejects (accepted out) [].
Proof.
  intros H. by apply from_element_path_inv in H as (_ & _ & _ & ->).
Qed.

(** ** Equality of packages *)

(** The attributes that take part in the comparison. *)
Lemma compared_dict (self : PvPackage) :
  filter (fun kv => kv.1 ∉ skip) (obj_dict self) = compared_attrs self.
Proof. reflexivity. Qed.

Lemma compared_attrs_eq (p q : PvPackage) :
  compared_attrs p = compared_attrs q
  <-> _all_use_proto p = _all_use_proto q
      /\ target_path p = target_path q
      /\ pragma p = pragma q
      /\ pv_partial p = pv_partial q
      /\ prefix p = prefix q
      /\ pv_complete p = pv_complete q
      /\ proto_name p = proto_name q
      /\ proto_file_name p = proto_file_name q
      /\ guessing_applied p = guessing_applied q
      /\ version p = version q
      /\ use_proto p = use_proto q.
Proof.
  split.
  - intros H.
    pose proof (f_equal (fun m => m !! "_all_use_proto") H) as H1.
    pose proof (f_equal (fun m => m !! "target_path") H) as H2.
    pose proof (f_equal (fun m => m !! "pragma") H) as H3.
    pose proof (f_equal (fun m => m !! "pv_partial") H) as H4.
    pose proof (f_equal (fun m => m !! "prefix") H) as H5.
    pose proof (f_equal (fun m => m !! "pv_complete") H) as H6.
    pose proof (f_equal (fun m => m !! "proto_name") H) as H7.
    pose proof (f_equal (fun m => m !! "proto_file_name") H) as H8.
    pose proof (f_equal (fun m => m !! "guessing_applied") H) as H9.
    pose proof (f_equal (fun m => m !! "version") H) as H10.
    pose proof (f_equal (fun m => m !! "use_proto") H) as H11.
    clear H. cbv beta in *.
    change (compared_attrs p !! "_all_use_proto")
      with (Some (AProtoTable (_all_use_proto p))) in H1.
    change (compared_attrs q !! "_all_use_proto")
      with (Some (AProtoTable (_all_use_proto q))) in H1.
    change (compared_attrs p !! "target_path")
      with (Some (APath (target_path p))) in H2.
    change (compared_attrs q !! "target_path")
      with (Some (APath (target_path q))) in H2.
    change (compared_attrs p !! "pragma")
      with (Some (APragma (pragma p))) in H3.
    change (compared_attrs q !! "pragma")
      with (Some (APragma (pragma q))) in H3.
    change (compared_attrs p !! "pv_partial")
      with (Some (AValue (pv_partial p))) in H4.
    change (compared_attrs q !! "pv_partial")
      with (Some (AValue (pv_partial q))) in H4.
    change (compared_attrs p !! "prefix")
      with (Some (AStr (prefix p))) in H5.
    change (compared_attrs q !! "prefix")
      with (Some (AStr (prefix q))) in H5.
    change (compared_attrs p !! "pv_complete")
      with (Some (AStr (pv_complete p))) in H6.
    change (compared_attrs q !! "pv_complete")
      with (Some (AStr (pv_complete q))) in H6.
    change (compared_attrs p !! "proto_name")
      with (Some (AOptStr (proto_name p))) in H7.
    change (compared_attrs q !! "proto_name")
      with (Some (AOptStr (proto_name q))) in H7.
    change (compared_attrs p !! "proto_file_name")
      with (Some (AOptStr (proto_file_name p))) in H8.
    change (compared_attrs q !! "proto_file_name")
      with (Some (AOptStr (proto_file_name q))) in H8.
    change (compared_attrs p !! "guessing_applied")
      with (Some (ABool (guessing_applied p))) in H9.
    change (compared_attrs q !! "guessing_applied")
      with (Some (ABool (guessing_applied q))) in H9.
    change (compared_attrs p !! "version")
      with (Some (AStr (version p))) in H10.
    change (compared_attrs q !! "version")
      with (Some (AStr (version q))) in H10.
    change (compared_attrs p !! "use_proto")
      with (Some (ABool (use_proto p))) in H11.
    change (compared_attrs q !! "use_proto")
      with (Some (ABool (use_proto q))) in H11.
    by simplify_eq.
  - intros (H1 & H2 & H3 & H4 & H5 & H6 & H7 & H8 & H9 & H10 & H11).
    unfold compared_attrs. congruence.
Qed.

(** C9: two packages constructed from the same path, group, stub names
    and version are equal, whatever their identities; two packages are
    equal exactly when their dictionaries agree on every attribute
    outside the skip list, that is on every attribute but the rule
    tables and the guess-method tables. *)
Theorem eq_spec :
  (forall self1 self2 tp pr pn pfn up1 up2 ver p1 p2,
      __init__ self1 tp pr pn pfn up1 ver = Ok p1 ->
      __init__ self2 tp pr pn pfn up2 ver = Ok p2 ->
      __eq__ p1 p2 = true)
  /\ (forall p q,
         __eq__ p q = true
         <-> forall k, k ∉ skip -> obj_dict p !! k = obj_dict q !! k)
  /\ (forall p q,
         __eq__ p q = true
         <-> _all_use_proto p = _all_use_proto q
             /\ target_path p = target_path q
             /\ pragma p = pragma q
             /\ pv_partial p = pv_partial q
             /\ prefix p = prefix q
             /\ pv_complete p = pv_complete q
             /\ proto_name p = proto_name q
             /\ proto_file_name p = proto_file_name q
             /\ guessing_applied p = guessing_applied q
             /\ version p = version q
             /\ use_proto p = use_proto q).
Proof.
  assert (Hattrs : forall p q,
             __eq__ p q = true <-> compared_attrs p = compared_attrs q).
  { intros p q. unfold __eq__. cbv zeta. rewrite !compared_dict.
    apply bool_decide_eq_true. }
  split_and!.
  - intros self1 self2 tp pr pn pfn up1 up2 ver p1 p2 H1 H2.
    apply Hattrs, compared_attrs_eq.
    apply init_inv in H1 as (s1 & ? & ? & pr1 & Hs1 & _ & _ & Hp1 & ->).
    apply init_inv in H2 as (s2 & ? & ? & pr2 & Hs2 & _ & _ & Hp2 & ->).
    simpl in *. assert (s1 = s2) as -> by congruence.
    assert (pr1 = pr2) as -> by congruence. done.
  - intros p q. unfold __eq__. cbv zeta. rewrite bool_decide_eq_true.
    rewrite map_eq_iff. split.
    + intros H k Hk. specialize (H k). rewrite !map_lookup_filter in H.
      destruct (obj_dict p !! k) as [x|], (obj_dict q !! k) as [y|];
        simpl in H; rewrite ?option_guard_True in H by done; by simplify_eq/=.
    + intros H k. rewrite !map_lookup_filter.
      destruct (decide (k ∈ skip)) as [Hk|Hk].
      * destruct (obj_dict p !! k) as [x|], (obj_dict q !! k) as [y|]; simpl;
          rewrite ?option_guard_False by (simpl; tauto); done.
      * by rewrite (H k Hk).
  - intros p q. by rewrite Hattrs, compared_attrs_eq.
Qed.

Lemma eq_spec_witness :
  exists p1 p2,
    __init__ 0 [Container; Leaf] groupB None None true "legacy" = Ok p1
    /\ __init__ 1 [Container; Leaf] groupB None None true "legacy" = Ok p2
    /\ guess_methods p1 <> guess_methods p2
    /\ __eq__ p1 p2 = true.
Proof.
  do 2 eexists. split; [vm_compute; reflexivity|].
  split; [vm_compute; reflexivity|]. split; [by vm_compute|].
  match goal with
  | |- __eq__ ?a ?b = true =>
      apply (proj1 eq_spec 0 1 [Container; Leaf] groupB None None true true
               "legacy" a b); vm_compute; reflexivity
  end.
Defined.

(** ** Chain assembly *)

Section Chains.

Variable parse : string -> list (gmap string value) -> option value.
Variable freeze : Element -> option value -> Element.

Lemma list_getitem_lt {A} (l : list A) i :
  i < length l -> exists x, list_getitem l i = Ok x.
Proof.
  intros Hi. unfold list_getitem.
  destruct (lookup_lt_is_Some_2 l i Hi) as [x ->]. eauto.
Qed.

Lemma chain_step_length new_elements i pc j :
  i < length pc -> j < length new_elements ->
  exists pc', chain_step new_elements i pc j = Ok pc'
              /\ length pc' = length pc + (if Nat.eqb j 0 then 0 else 1).
Proof.
  intros Hi Hj. unfold chain_step.
  destruct (list_getitem_lt new_elements j Hj) as [e He].
  destruct (list_getitem_lt pc i Hi) as [c Hc].
  destruct j as [|j]; simpl.
  - rewrite Hc, He. simpl. eexists. split; [done|].
    rewrite length_insert. lia.
  - rewrite Hc, He. simpl. eexists. split; [done|].
    rewrite length_app. simpl. lia.
Qed.

Lemma inner_loop_length new_elements i n : forall k pc,
  i < length pc -> k + n <= length new_elements ->
  exists pc', for_each (chain_step new_elements i) pc (seq k n) = Ok pc'
              /\ length pc' + (if Nat.eqb k 0 then Nat.min 1 n else 0)
                 = length pc + n.
Proof.
  induction n as [|n IH]; intros k pc Hi Hk; simpl.
  - eexists. split; [done|]. destruct (Nat.eqb k 0); lia.
  - destruct (chain_step_length new_elements i pc k) as (pc1 & -> & Hlen);
      [lia..|]. simpl.
    destruct (IH (S k) pc1) as (pc' & -> & Hlen'); [lia..|].
    eexists. split; [done|]. simpl in Hlen'.
    destruct (Nat.eqb k 0); lia.
Qed.

Lemma outer_loop_length new_elements n : forall k pc,
  k + n <= length pc ->
  exists pc',
    for_each (fun pc chain_idx =>
                for_each (chain_step new_elements chain_idx) pc
                         (seq 0 (length new_elements)))
             pc (seq k n) = Ok pc'
    /\ length pc' = length pc + n * (length new_elements - 1).
Proof.
  induction n as [|n IH]; intros k pc Hk; simpl.
  - eexists. split; [done|]. lia.
  - destruct (inner_loop_length new_elements k (length new_elements) 0 pc)
      as (pc1 & -> & Hlen); [lia..|]. cbn [Nat.eqb] in Hlen. cbn [mbind result_bind].
    destruct (IH (S k) pc1) as (pc' & -> & Hlen'); [lia|].
    eexists. split; [done|]. lia.
Qed.

Lemma extend_chains_length new_elements pc :
  exists pc', extend_chains new_elements pc = Ok pc'
              /\ length pc' = length pc + length pc * (length new_elements - 1).
Proof. apply outer_loop_length. lia. Qed.

Lemma first_tier_loop (new_elements : list Element) n :
  forall k (pc : list (list Element)),
  k + n <= length new_elements ->
  exists pc',
    for_each (fun pc new_elem_idx =>
                e ← list_getitem new_elements new_elem_idx;
                mret (pc ++ [[e]]))
             pc (seq k n) = Ok pc'
    /\ length pc' = length pc + n.
Proof.
  induction n as [|n IH]; intros k pc Hk; simpl.
  - eexists. split; [done|]. lia.
  - destruct (list_getitem_lt new_elements k) as [e ->]; [lia|]. simpl.
    destruct (IH (S k) (pc ++ [[e]])) as (pc' & -> & Hlen); [lia|].
    eexists. split; [done|]. rewrite length_app in Hlen. simpl in Hlen. lia.
Qed.

(** The number of chains: every element with at least one group
    multiplies it by the number of its groups. *)
Lemma assemble_count target_path : forall pc,
  target_path <> [] ->
  Forall (fun e => 1 <= length (config_by_pv e)) target_path ->
  exists chains,
    assemble_package_chains parse freeze target_path pc = Ok chains
    /\ length chains
       = Nat.max 1 (length (default [] pc))
         * product (map (fun e => length (config_by_pv e)) target_path).
Proof.
  induction target_path as [|target rest IH]; intros pc Hne Hgroups; [done|].
  apply Forall_cons in Hgroups as [Hm Hrest].
  cbn [assemble_package_chains].
  set (news := new_elements_of parse freeze target).
  assert (Hnews : length news = length (config_by_pv target)).
  { unfold news, new_elements_of. by rewrite length_map. }
  replace (match pc with Some pc0 => pc0 | None => [] end)
    with (default [] pc) by by destruct pc.
  destruct (extend_chains_length news (default [] pc)) as (pc1 & -> & Hlen1).
  simpl.
  assert (exists pc2,
             (if Nat.eqb (length pc1) 0
              then first_tier news pc1 else mret pc1) = Ok pc2
             /\ length pc2
                = Nat.max 1 (length (default [] pc))
                  * length (config_by_pv target)
             /\ 1 <= length pc2) as (pc2 & -> & Hlen2 & Hpos).
  { rewrite Hnews in Hlen1.
    destruct (length (config_by_pv target)) as [|m] eqn:Em; [lia|].
    replace (S m - 1) with m in Hlen1 by lia.
    destruct (Nat.eqb_spec (length pc1) 0) as [Hz|Hnz].
    - destruct (first_tier_loop news (length news) 0 pc1) as (pc2 & Hpc2 & Hl);
        [lia|].
      exists pc2. split; [done|].
      assert (length (default [] pc) = 0) as -> by lia.
      simpl. lia.
    - exists pc1. split; [done|].
      assert (1 <= length (default [] pc)) by (destruct (length (default [] pc)); lia).
      rewrite Nat.max_r by done. split; [nia|lia]. }
  simpl. destruct rest as [|next rest'].
  - simpl. eexists. split; [done|]. rewrite Hlen2. simpl. lia.
  - cbn [length Nat.eqb].
    destruct (IH (Some pc2)) as (chains & -> & Hlen); [done|done|].
    eexists. split; [done|]. rewrite Hlen. simpl default.
    rewrite Nat.max_r by done. rewrite Hlen2.
    change (product (map (fun e => length (config_by_pv e))
                         (target :: next :: rest')))
      with (length (config_by_pv target)
            * product (map (fun e => length (config_by_pv e))
                           (next :: rest'))).
    by rewrite Nat.mul_assoc.
Qed.

End Chains.

(** C2: on a container with one group followed by a leaf with two, the
    second chain holds both copies of the leaf, three elements for a path
    of two; this for any [parse_pragma] and [freeze_pv]. *)
Theorem chain_holds_two_groups_of_leaf
    (parse : string -> list (gmap string value) -> option value)
    (freeze : Element -> option value -> Element) :
  let main := freeze Container (parse "pv" [make_config "pv" "MAIN" false]) in
  let count := freeze Leaf (parse "pv" groupA) in
  let limit := freeze Leaf (parse "pv" groupB) in
  assemble_package_chains parse freeze [Container; Leaf] None
  = Ok [[main; count]; [main; count; limit]].
Proof. reflexivity. Qed.

(** With the collaborators as modelled, the three elements are the
    container and the leaf bound to its two pv names. *)
Example chain_of_three :
  match assemble_package_chains parse_pragma freeze_pv [Container; Leaf] None
  with
  | Ok chains => map (map (fun e => (name e, pv e))) chains
  | Raise _ => []
  end
  = [ [("MAIN", "MAIN"); ("leaf", "count")];
      [("MAIN", "MAIN"); ("leaf", "count"); ("leaf", "limit")] ].
Proof. reflexivity. Qed.

Lemma assemble_count_witness :
  exists chains,
    assemble_package_chains parse_pragma freeze_pv [Leaf; Container; Leaf]
      None = Ok chains
    /\ length chains = 4.
Proof.
  destruct (assemble_count parse_pragma freeze_pv [Leaf; Container; Leaf]
              None) as (chains & H & Hlen).
  - done.
  - repeat constructor.
  - exists chains. split; [done|]. rewrite Hlen. reflexivity.
Defined.

(** ** The store *)

Section StoreFacts.

Import Store.




















End StoreFacts.

Section StoreSample.

Import Store.

Local Ltac entries :=
  let k := fresh "k" in
  let x := fresh "x" in
  let v := fresh "v" in
  let Hd := fresh "Hd" in
  let Hv := fresh "Hv" in
  intros k x v Hd Hv;
  apply lookup_insert_Some in Hd as [[<- <-]|[? Hd]];
  [|apply lookup_singleton_Some in Hd as [<- <-]];
  vm_compute in Hv; injection Hv as <-.



(** The copy of the sample group: four new objects, none of the old. *)
Example deepcopy_sample :
  deepcopy 3 sample_heap (PRef 3)
  = Some (sample_heap
          ++ [ ODict {[ "title" := PStr "pv"; "tag" := PStr "count" ]};
               ODict {[ "f_name" := PStr "DTYP"; "f_set" := PStr "stream" ]};
               ODict {[ "title" := PStr "field"; "tag" := PRef 5 ]};
               OList [PRef 4; PRef 6] ],
          PRef 7).
Proof. by vm_compute. Qed.

(** With a shallow copy instead, a row of the copy is a row of the
    original, and writing to it changes the group passed in. *)
Example shallow_copy_shares_rows :
  exists h1 x',
    shallow_copy sample_heap (PRef 3) = Some (h1, x')
    /\ reach h1 x' 0
    /\ <[0 := ODict ∅]> h1 !! 0 <> sample_heap !! 0.
Proof.
  eexists _, _. split; [reflexivity|]. split; [|by vm_compute].
  eapply reach_step; [reflexivity|by left|constructor].
Qed.

End StoreSample.
